(** * endpoint: a DNS endpoint record, its constructors, label merge and
      validated geolocation setters (package [endpoint], file endpoint.go).

    The Go code is embedded shallowly: strings are byte strings
    ([String.string], one [ascii] per byte, as Go's [string]), [TTL] is an
    integer, a Go [map[string]string] is a possibly-nil finite map, the
    methods on [*Endpoint] pass the record explicitly, and the three library
    calls the file makes ([strings.TrimSuffix], [regexp.Match],
    [fmt.Sprintf]/[fmt.Errorf]) are modelled in modules of their own. *)

From Stdlib Require Import ZArith Ascii String List Bool Lia.
From Stdlib Require Import Numbers.DecimalString Numbers.DecimalFacts.
From Stdlib Require Import Numbers.DecimalPos.
From stdpp Require Import base option gmap strings fin_maps.

Local Open Scope string_scope.

(** ** Byte strings *)

Module GoStrings.

(** [len(s)] *)
Definition len (s : string) : nat := String.length s.

(** [s[i:]] and [s[:j]] *)
Fixpoint sliceFrom (i : nat) (s : string) : string :=
  match i, s with
  | O, _ => s
  | S i', String _ s' => sliceFrom i' s'
  | S _, EmptyString => EmptyString
  end.

Fixpoint sliceTo (j : nat) (s : string) : string :=
  match j, s with
  | O, _ => EmptyString
  | S j', String c s' => String c (sliceTo j' s')
  | S _, EmptyString => EmptyString
  end.

(** [strings.HasSuffix]:
    [len(s) >= len(suffix) && s[len(s)-len(suffix):] == suffix] *)
Definition HasSuffix (s suffix : string) : bool :=
  (len suffix <=? len s)%nat
  && String.eqb (sliceFrom (len s - len suffix) s) suffix.

(** [strings.TrimSuffix]: [s] without the given trailing suffix, or [s]
    itself when it does not end with it. *)
Definition TrimSuffix (s suffix : string) : string :=
  if HasSuffix s suffix then sliceTo (len s - len suffix) s else s.

(** The last byte of a string, if any. *)
Fixpoint lastByte (s : string) : option ascii :=
  match s with
  | EmptyString => None
  | String c EmptyString => Some c
  | String _ s' => lastByte s'
  end.

(** The string without its last byte. *)
Fixpoint dropLast (s : string) : string :=
  match s with
  | EmptyString => EmptyString
  | String _ EmptyString => EmptyString
  | String c s' => String c (dropLast s')
  end.

End GoStrings.

(** ** fmt: the verbs the package uses *)

Module GoFmt.

(** An operand of a formatting call, with the name of its Go type. *)
Inductive arg : Type :=
| VString (s : string)
| VInt (ty : string) (z : Z).

(** [strconv.FormatInt(z, 10)] *)
Definition FormatInt (z : Z) : string := NilZero.string_of_int (Z.to_int z).

Definition typeName (a : arg) : string :=
  match a with
  | VString _ => "string"
  | VInt ty _ => ty
  end.

(** The default rendering ([%v]). *)
Definition display (a : arg) : string :=
  match a with
  | VString s => s
  | VInt _ z => FormatInt z
  end.

Definition one (c : ascii) : string := String c EmptyString.

(** What a verb prints for an operand; a verb that does not fit the
    operand's type prints [%!verb(type=value)]. *)
Definition verb (c : ascii) (a : arg) : string :=
  match a with
  | VString s =>
      if Ascii.eqb c "s" || Ascii.eqb c "v" then s
      else "%!" ++ one c ++ "(" ++ typeName a ++ "=" ++ display a ++ ")"
  | VInt _ z =>
      if Ascii.eqb c "d" || Ascii.eqb c "v" then FormatInt z
      else "%!" ++ one c ++ "(" ++ typeName a ++ "=" ++ display a ++ ")"
  end.

Fixpoint extra (a : list arg) : string :=
  match a with
  | [] => ""
  | [x] => typeName x ++ "=" ++ display x
  | x :: a' => typeName x ++ "=" ++ display x ++ ", " ++ extra a'
  end.

(** [fmt.Sprintf] on formats made of plain text, [%%] and one-letter
    verbs (flags, widths and precisions are not used by this package and
    are not modelled).  Operands are consumed left to right; a verb
    without operand prints [%!verb(MISSING)], a trailing [%] prints
    [%!(NOVERB)] and left-over operands are reported at the end. *)
Fixpoint Sprintf (format : string) (a : list arg) : string :=
  match format with
  | EmptyString =>
      match a with
      | [] => ""
      | _ => "%!(EXTRA " ++ extra a ++ ")"
      end
  | String "%" EmptyString => "%!(NOVERB)"
  | String "%" (String c rest) =>
      if Ascii.eqb c "%" then String "%" (Sprintf rest a)
      else match a with
           | [] => "%!" ++ one c ++ "(MISSING)" ++ Sprintf rest []
           | x :: a' => verb c x ++ Sprintf rest a'
           end
  | String c rest => String c (Sprintf rest a)
  end.

(** The value [fmt.Errorf] returns: an [error] whose [Error()] is the
    formatted message. *)
Record error : Type := mkError { Error : string }.

Definition Errorf (format : string) (a : list arg) : error :=
  mkError (Sprintf format a).

End GoFmt.

(** ** regexp: the fragment of the syntax the package's patterns use *)

Module GoRegexp.

(** Parsed patterns: [^] and [$] (without the [m] flag: beginning and end
    of the text), the empty pattern, a literal byte, a class [[lo-hi]],
    concatenation, alternation and [?]. *)
Inductive Regexp : Type :=
| EmptyMatch
| BeginText
| EndText
| Literal (c : ascii)
| CharClass (lo hi : ascii)
| Concat (r1 r2 : Regexp)
| Alternate (r1 r2 : Regexp)
| Quest (r : Regexp).

(** [r{min,max}] is sugar: [min] copies of [r] followed by [max - min]
    nested optional copies, [r{1,3}] being [r(r(r)?)?]. *)
Fixpoint copies (r : Regexp) (n : nat) : Regexp :=
  match n with
  | O => EmptyMatch
  | S n' => Concat r (copies r n')
  end.

Fixpoint nested (r : Regexp) (n : nat) : Regexp :=
  match n with
  | O => EmptyMatch
  | S n' => Quest (Concat r (nested r n'))
  end.

Definition Repeat (r : Regexp) (min max : nat) : Regexp :=
  Concat (copies r min) (nested r (max - min)).

Definition inClass (lo hi c : ascii) : bool :=
  (nat_of_ascii lo <=? nat_of_ascii c)%nat
  && (nat_of_ascii c <=? nat_of_ascii hi)%nat.

Definition atEnd (s : string) : bool :=
  match s with
  | EmptyString => true
  | String _ _ => false
  end.

(** Backtracking matcher.  [bot] tells whether the position is the
    beginning of the text, [s] is the rest of the text and [k] is what
    remains to be matched after [r]. *)
Fixpoint run (r : Regexp) (bot : bool) (s : string)
         (k : bool -> string -> bool) : bool :=
  match r with
  | EmptyMatch => k bot s
  | BeginText => bot && k bot s
  | EndText => atEnd s && k bot s
  | Literal c =>
      match s with
      | String c' s' => Ascii.eqb c c' && k false s'
      | EmptyString => false
      end
  | CharClass lo hi =>
      match s with
      | String c' s' => inClass lo hi c' && k false s'
      | EmptyString => false
      end
  | Concat r1 r2 => run r1 bot s (fun bot' s' => run r2 bot' s' k)
  | Alternate r1 r2 => run r1 bot s k || run r2 bot s k
  | Quest r' => run r' bot s k || k bot s
  end.

(** A match may start at any position of the text. *)
Fixpoint search (r : Regexp) (bot : bool) (s : string) : bool :=
  run r bot s (fun _ _ => true)
  || match s with
     | EmptyString => false
     | String _ s' => search r false s'
     end.

(** [regexp.Match(pattern, []byte(s))] for a pattern that compiles:
    whether the text contains a match. *)
Definition Match (r : Regexp) (s : string) : bool := search r true s.

End GoRegexp.

(** ** Go maps *)

(** A [map[string]string] value: [None] is the nil map, which reads as the
    empty map and cannot be assigned to. *)
Definition gomap : Type := option (gmap string string).

(** [m[k]]: the value, or the zero value [""] for a missing key. *)
Definition index (m : gomap) (k : string) : string :=
  match m with
  | Some g => default "" (g !! k)
  | None => ""
  end.

(** [m[k] = v]; [None] is the run-time panic "assignment to entry in nil
    map". *)
Definition assign (m : gomap) (k v : string) : option gomap :=
  match m with
  | Some g => Some (Some (<[k := v]> g))
  | None => None
  end.

(** The pairs a [for k, v := range m] visits (in no particular order; a
    nil map has none). *)
Definition range (m : gomap) : list (string * string) :=
  match m with
  | Some g => map_to_list g
  | None => []
  end.

(** ** The package *)

Import GoStrings GoFmt GoRegexp.

Definition OwnerLabelKey : string := "owner".
Definition RecordTypeA : string := "A".
Definition RecordTypeCNAME : string := "CNAME".
Definition RecordTypeTXT : string := "TXT".

(** [type TTL int64]: the package only stores, compares and prints such
    values, so they are plain integers here. *)
Definition TTL : Type := Z.

Definition IsConfigured (ttl : TTL) : bool := (0 <? ttl)%Z.

Record GeoLocation : Type := mkGeoLocation {
  ContinentCode : string;
  CountryCode : string;
  SubdivisionCode : string
}.

(** The field [GeoLocation GeoLocation] of the source is [Geo] here, the
    name of the type being taken. *)
Record Endpoint : Type := mkEndpoint {
  DNSName : string;
  Target : string;
  RecordType : string;
  RecordTTL : TTL;
  Labels : gomap;
  Geo : GeoLocation
}.

Definition NewEndpointWithTTL (dnsName target recordType : string) (ttl : TTL)
  : Endpoint :=
  {| DNSName := TrimSuffix dnsName ".";
     Target := TrimSuffix target ".";
     RecordType := recordType;
     Labels := Some ∅;
     RecordTTL := ttl;
     Geo := mkGeoLocation "" "" "" |}.

Definition NewEndpoint (dnsName target recordType : string) : Endpoint :=
  NewEndpointWithTTL dnsName target recordType 0%Z.

(** The body of the loop of [MergeLabels] for one pair, on the receiver's
    map. *)
Definition mergeLabel (L : gomap) (kv : string * string) : option gomap :=
  if String.eqb (index L kv.1) "" then assign L kv.1 kv.2 else Some L.

Fixpoint mergeLoop (kvs : list (string * string)) (L : gomap)
  : option gomap :=
  match kvs with
  | [] => Some L
  | kv :: kvs' =>
      match mergeLabel L kv with
      | Some L' => mergeLoop kvs' L'
      | None => None
      end
  end.

Definition withLabels (e : Endpoint) (L : gomap) : Endpoint :=
  {| DNSName := DNSName e; Target := Target e; RecordType := RecordType e;
     RecordTTL := RecordTTL e; Labels := L; Geo := Geo e |}.

(** [e.MergeLabels(labels)]: the receiver afterwards, or [None] when the
    call panics. *)
Definition MergeLabels (labels : gomap) (e : Endpoint) : option Endpoint :=
  withLabels e <$> mergeLoop (range labels) (Labels e).

(** The patterns, as [regexp] parses them. *)

(** The pattern of [SetContinentCode]: [^(AF|AN|AS|EU|OC|NA|SA|\* )?$]
    (written here with a blank after the escaped asterisk). *)
Definition lit2 (a b : ascii) : Regexp := Concat (Literal a) (Literal b).

Definition continentPattern : Regexp :=
  Concat BeginText
    (Concat
       (Quest
          (Alternate (lit2 "A" "F")
          (Alternate (lit2 "A" "N")
          (Alternate (lit2 "A" "S")
          (Alternate (lit2 "E" "U")
          (Alternate (lit2 "O" "C")
          (Alternate (lit2 "N" "A")
          (Alternate (lit2 "S" "A") (Literal "*")))))))))
       EndText).

(** The pattern of [SetCountryCode]: [^([A-Z]{1,2}|\* )?$] (again with a
    blank added after the escaped asterisk). *)
Definition countryPattern : Regexp :=
  Concat BeginText
    (Concat
       (Quest (Alternate (Repeat (CharClass "A" "Z") 1 2) (Literal "*")))
       EndText).

(** The pattern of [SetSubdivisionCode]: [^([A-Z]{1,3})?$]. *)
Definition subdivisionPattern : Regexp :=
  Concat BeginText
    (Concat (Quest (Repeat (CharClass "A" "Z") 1 3)) EndText).

(** The receiver together with the logger the setters write to
    ([log.Error]); the newest entry comes first. *)
Record Store : Type := mkStore {
  this : Endpoint;
  logrus : list error
}.

Definition withGeo (e : Endpoint) (g : GeoLocation) : Endpoint :=
  {| DNSName := DNSName e; Target := Target e; RecordType := RecordType e;
     RecordTTL := RecordTTL e; Labels := Labels e; Geo := g |}.

Definition logError (err : error) (st : Store) : Store :=
  {| this := this st; logrus := err :: logrus st |}.

(** The setters return the store afterwards and the [error] result
    ([None] is [nil]). *)
Definition SetContinentCode (continentCode : string) (st : Store)
  : Store * option error :=
  if Match continentPattern continentCode then
    let e := this st in
    ({| this := withGeo e
          (mkGeoLocation continentCode (CountryCode (Geo e))
             (SubdivisionCode (Geo e)));
        logrus := logrus st |}, None)
  else
    let err :=
      Errorf "%s is not a valid ContinentCode format, expected 'AF|AN|AS|EU|OC|NA|SA|*' or empty string"
        [VString continentCode] in
    (logError err st, Some err).

Definition SetCountryCode (countryCode : string) (st : Store)
  : Store * option error :=
  if Match countryPattern countryCode then
    let e := this st in
    ({| this := withGeo e
          (mkGeoLocation (ContinentCode (Geo e)) countryCode
             (SubdivisionCode (Geo e)));
        logrus := logrus st |}, None)
  else
    let err :=
      Errorf "%s is not a valid SubdivisionCode format, expected 1-2 uppercase characters, *  or empty string"
        [VString countryCode] in
    (logError err st, Some err).

Definition SetSubdivisionCode (subdivisionCode : string) (st : Store)
  : Store * option error :=
  if Match subdivisionPattern subdivisionCode then
    let e := this st in
    ({| this := withGeo e
          (mkGeoLocation (ContinentCode (Geo e)) (CountryCode (Geo e))
             subdivisionCode);
        logrus := logrus st |}, None)
  else
    let err :=
      Errorf "%s is not a valid SubdivisionCode format, expected 1-3 uppercase characters or empty string"
        [VString subdivisionCode] in
    (logError err st, Some err).

(** [func (e *Endpoint) String() string] *)
Definition Endpoint_String (e : Endpoint) : string :=
  Sprintf "%s %d IN %s %s"
    [VString (DNSName e); VInt "endpoint.TTL" (RecordTTL e);
     VString (RecordType e); VString (Target e)].


(** ** Vocabulary of the properties *)

Definition endsWithDot (s : string) : Prop := lastByte s = Some "."%char.

(** The string ends with [.] and its last byte is the only trailing dot. *)
Definition endsWithOneDot (s : string) : Prop :=
  endsWithDot s /\ ~ endsWithDot (dropLast s).

Definition endsWithTwoDots (s : string) : Prop :=
  endsWithDot s /\ endsWithDot (dropLast s).

(** [v, ok := m[k]]: the value stored under a key, if the key is present. *)
Definition lookupLabel (m : gomap) (k : string) : option string :=
  match m with
  | Some g => g !! k
  | None => None
  end.

(** The codes each geolocation field admits, spelled out. *)
Definition continentCodes : list string :=
  ["AF"; "AN"; "AS"; "EU"; "OC"; "NA"; "SA"; "*"].

Definition upperLetters : list ascii :=
  list_ascii_of_string "ABCDEFGHIJKLMNOPQRSTUVWXYZ".

Definition isUpperLetter (c : ascii) : Prop := In c upperLetters.

Definition allUpper (s : string) : Prop :=
  Forall isUpperLetter (list_ascii_of_string s).

Definition validContinentCode (s : string) : Prop :=
  s = "" \/ In s continentCodes.

Definition validCountryCode (s : string) : Prop :=
  s = "" \/ s = "*" \/ (1 <= len s <= 2 /\ allUpper s).

Definition validSubdivisionCode (s : string) : Prop :=
  s = "" \/ (1 <= len s <= 3 /\ allUpper s).

(** The three setters, uniformly. *)
Inductive GeoField : Type := FContinent | FCountry | FSubdivision.

Definition setCode (f : GeoField) : string -> Store -> Store * option error :=
  match f with
  | FContinent => SetContinentCode
  | FCountry => SetCountryCode
  | FSubdivision => SetSubdivisionCode
  end.

Definition code (f : GeoField) (e : Endpoint) : string :=
  match f with
  | FContinent => ContinentCode (Geo e)
  | FCountry => CountryCode (Geo e)
  | FSubdivision => SubdivisionCode (Geo e)
  end.

Definition pattern (f : GeoField) : Regexp :=
  match f with
  | FContinent => continentPattern
  | FCountry => countryPattern
  | FSubdivision => subdivisionPattern
  end.

Definition validCode (f : GeoField) : string -> Prop :=
  match f with
  | FContinent => validContinentCode
  | FCountry => validCountryCode
  | FSubdivision => validSubdivisionCode
  end.

(** The operations that mutate an endpoint after its construction, and the
    states they lead to.  A call that panics leads nowhere. *)
Inductive Op : Type :=
| OpMergeLabels (labels : gomap)
| OpSetCode (f : GeoField) (c : string).

Definition exec (o : Op) (st : Store) : option Store :=
  match o with
  | OpMergeLabels labels =>
      (fun e => mkStore e (logrus st)) <$> MergeLabels labels (this st)
  | OpSetCode f c => Some (fst (setCode f c st))
  end.

Inductive reachable (st0 : Store) : Store -> Prop :=
| reach_start : reachable st0 st0
| reach_exec (st st' : Store) (o : Op) :
    reachable st0 st -> exec o st = Some st' -> reachable st0 st'.

(** The labels of the receiver after a merge, key by key: a non-empty value
    stays, otherwise the value of the argument comes in when it has one. *)
Definition mergedLabel (g labels : gmap string string) (k : string)
  : option string :=
  match g !! k with
  | Some w => if String.eqb w "" then Some (default w (labels !! k)) else Some w
  | None => labels !! k
  end.

(** Decimal numerals, read digit by digit from the left. *)
Definition digit (c : ascii) : option Z :=
  let n := Z.of_nat (nat_of_ascii c) in
  if ((48 <=? n) && (n <=? 57))%Z then Some (n - 48)%Z else None.

Fixpoint digits (acc : Z) (s : string) : option Z :=
  match s with
  | EmptyString => Some acc
  | String c s' =>
      match digit c with
      | Some d => digits (10 * acc + d)%Z s'
      | None => None
      end
  end.

Definition leadingNonZero (s : string) : bool :=
  match s with
  | String c _ => negb (Ascii.eqb c "0")
  | EmptyString => false
  end.

(** [t] is the numeral of the natural number [n]: digits only, of value
    [n], without leading zero (the numeral of zero is ["0"]). *)
Definition numeral (n : Z) (t : string) : Prop :=
  digits 0 t = Some n /\ (t = "0" \/ leadingNonZero t = true).

(** [s] is the integer [z] in decimal: its numeral, after a minus sign when
    [z] is negative. *)
Definition decimal (z : Z) (s : string) : Prop :=
  if (z <? 0)%Z then exists t, s = String "-" t /\ numeral (- z) t
  else numeral z s.

(** What each setter tells the caller it expected. *)
Definition expectedFormat (f : GeoField) : string :=
  match f with
  | FContinent => "'AF|AN|AS|EU|OC|NA|SA|*' or empty string"
  | FCountry => "1-2 uppercase characters, *  or empty string"
  | FSubdivision => "1-3 uppercase characters or empty string"
  end.

(** Values the examples are run on: the zero value [Endpoint{}] (its
    [Labels] is the nil map), a constructed endpoint in a store with an empty
    log, and a one-entry label map. *)
Definition zeroEndpoint : Endpoint :=
  mkEndpoint "" "" "" 0%Z None (mkGeoLocation "" "" "").

Definition exampleStore : Store :=
  mkStore (NewEndpointWithTTL "example.com." "1.2.3.4" "A" 300%Z) [].

Definition ownerLabels : gomap := Some {[ OwnerLabelKey := "me" ]}.

(** A second label map, with two keys one of which is the owner key, and
    an endpoint that already has an owner. *)
Definition otherLabels : gomap :=
  Some (<[ OwnerLabelKey := "you" ]> {[ "zone" := "eu" ]}).

Definition ownedStore : Store :=
  mkStore (withLabels (this exampleStore) ownerLabels) [].

(** * Properties *)

(** ** Trailing dots *)

Section TrimSuffix.

Lemma len_tail (c : ascii) (s : string) : len (String c s) - 1 = len s.
Proof. cbn. apply Nat.sub_0_r. Qed.

Lemma sliceFrom_last (c : ascii) (s : string) :
  sliceFrom (len s) (String c s)
  = match lastByte (String c s) with
    | Some d => String d EmptyString
    | None => EmptyString
    end.
Proof.
  revert c. induction s as [|d s IH]; intros c; [reflexivity|].
  exact (IH d).
Qed.

Lemma sliceTo_dropLast (c : ascii) (s : string) :
  sliceTo (len s) (String c s) = dropLast (String c s).
Proof.
  revert c. induction s as [|d s IH]; intros c; [reflexivity|].
  change (String c (sliceTo (len s) (String d s))
          = String c (dropLast (String d s))).
  now rewrite IH.
Qed.

Lemma HasSuffix_dot (s : string) :
  HasSuffix s "." = true <-> endsWithDot s.
Proof.
  unfold HasSuffix, endsWithDot. destruct s as [|c s]; [easy|].
  change (len ".") with 1. rewrite len_tail, sliceFrom_last.
  destruct (lastByte (String c s)) as [d|]; cbn.
  - destruct (Ascii.eqb_spec d ".") as [->|N]; split; try easy.
    intros [= E]. contradiction.
  - split; discriminate.
Qed.

Lemma TrimSuffix_dot_present (s : string) :
  endsWithDot s -> TrimSuffix s "." = dropLast s.
Proof.
  intros H. unfold TrimSuffix. apply HasSuffix_dot in H. rewrite H.
  destruct s as [|c s]; [reflexivity|].
  change (len ".") with 1. rewrite len_tail. apply sliceTo_dropLast.
Qed.

Lemma TrimSuffix_dot_absent (s : string) :
  ~ endsWithDot s -> TrimSuffix s "." = s.
Proof.
  intros H. unfold TrimSuffix.
  destruct (HasSuffix s ".") eqn:E; [|reflexivity].
  apply HasSuffix_dot in E. contradiction.
Qed.

Lemma endsWithDot_dec (s : string) : {endsWithDot s} + {~ endsWithDot s}.
Proof.
  unfold endsWithDot. destruct (lastByte s) as [c|].
  - destruct (Ascii.ascii_dec c ".") as [->|N]; [now left|].
    right. intros [= E]. contradiction.
  - right. discriminate.
Defined.

(** Putting the last byte back. *)
Lemma dropLast_lastByte (s : string) (c : ascii) :
  lastByte s = Some c -> s = dropLast s ++ String c EmptyString.
Proof.
  induction s as [|d s IH]; [discriminate|].
  destruct s as [|d' s].
  - intros [= ->]. reflexivity.
  - intros H.
    change (String d (String d' s)
            = String d (dropLast (String d' s) ++ String c EmptyString)).
    f_equal. apply IH. exact H.
Qed.

(** What is left after the trim still ends with a dot exactly when the
    input ended with two. *)
Lemma TrimSuffix_dot_endsWithDot (s : string) :
  endsWithDot (TrimSuffix s ".") <-> endsWithTwoDots s.
Proof.
  unfold endsWithTwoDots. destruct (endsWithDot_dec s) as [Y|N].
  - rewrite (TrimSuffix_dot_present _ Y). tauto.
  - rewrite (TrimSuffix_dot_absent _ N). tauto.
Qed.

End TrimSuffix.

(** ** Matching the anchored patterns *)

Section Matching.

Lemma run_ext (r : Regexp) (bot : bool) (s : string)
      (k1 k2 : bool -> string -> bool) :
  (forall b t, k1 b t = k2 b t) -> run r bot s k1 = run r bot s k2.
Proof.
  revert bot s k1 k2.
  induction r as [| | |c|lo hi|r1 IH1 r2 IH2|r1 IH1 r2 IH2|r IH];
    intros bot s k1 k2 E; cbn [run].
  - apply E.
  - now rewrite E.
  - now rewrite E.
  - destruct s; [reflexivity|]. now rewrite E.
  - destruct s; [reflexivity|]. now rewrite E.
  - apply IH1. intros b t. now apply IH2.
  - now rewrite (IH1 bot s k1 k2 E), (IH2 bot s k1 k2 E).
  - now rewrite (IH bot s k1 k2 E), E.
Qed.

(** A pattern that starts with [^] cannot match further inside. *)
Lemma search_inside (r : Regexp) (s : string) :
  search (Concat BeginText r) false s = false.
Proof. induction s as [|c s IH]; cbn [search run andb orb]; auto. Qed.

(** Between [^] and [$] the whole text has to match. *)
Lemma Match_whole (r : Regexp) (s : string) :
  Match (Concat BeginText (Concat r EndText)) s
  = run r true s (fun _ t => atEnd t).
Proof.
  unfold Match.
  assert (run (Concat BeginText (Concat r EndText)) true s (fun _ _ => true)
          = run r true s (fun _ t => atEnd t)) as E.
  { cbn [run andb]. apply run_ext. intros b t. apply andb_true_r. }
  destruct s as [|c s]; cbn [search]; rewrite E.
  - apply orb_false_r.
  - rewrite search_inside. apply orb_false_r.
Qed.

Lemma inClass_upper (c : ascii) :
  inClass "A" "Z" c = true <-> isUpperLetter c.
Proof.
  unfold isUpperLetter.
  assert (inClass "A" "Z" c = existsb (Ascii.eqb c) upperLetters) as ->.
  { destruct c as [[] [] [] [] [] [] [] []]; reflexivity. }
  rewrite existsb_exists. split.
  - intros (x & Hx & E). apply Ascii.eqb_eq in E. now subst.
  - intros H. exists c. split; [exact H | apply Ascii.eqb_refl].
Qed.

End Matching.

(** ** What the three patterns accept *)

Ltac bool_hyps :=
  repeat match goal with
    | H : (_ || _) = true |- _ => apply orb_prop in H; destruct H
    | H : (_ && _) = true |- _ => apply andb_prop in H; destruct H
    | H : Ascii.eqb _ _ = true |- _ => apply Ascii.eqb_eq in H; subst
    | H : inClass "A" "Z" _ = true |- _ => apply inClass_upper in H
    | H : false = true |- _ => discriminate H
    end.

Ltac unfold_run :=
  cbn [run atEnd lit2 Repeat copies nested Nat.sub andb orb].

Section Patterns.

Lemma continentPattern_accepts (s : string) :
  Match continentPattern s = true <-> validContinentCode s.
Proof.
  unfold continentPattern, validContinentCode, continentCodes.
  rewrite Match_whole. split.
  - destruct s as [|c1 [|c2 [|c3 s]]]; unfold_run; intros H; bool_hyps;
      cbn [In]; tauto.
  - intros [->|H]; [reflexivity|].
    cbn [In] in H. repeat (destruct H as [<-|H]; [reflexivity|]).
    contradiction.
Qed.

Lemma allUpper_cons (c : ascii) (s : string) :
  allUpper (String c s) <-> isUpperLetter c /\ allUpper s.
Proof.
  unfold allUpper. cbn [list_ascii_of_string]. split.
  - intros H. inversion H; subst. tauto.
  - intros [H1 H2]. now constructor.
Qed.

Lemma allUpper_nil : allUpper "".
Proof. constructor. Qed.

Lemma star_not_upper : ~ isUpperLetter "*".
Proof. intros H. apply inClass_upper in H. discriminate H. Qed.

Lemma countryPattern_accepts (s : string) :
  Match countryPattern s = true <-> validCountryCode s.
Proof.
  unfold countryPattern, validCountryCode.
  rewrite Match_whole. split.
  - destruct s as [|c1 [|c2 [|c3 s]]]; unfold_run; intros H; bool_hyps;
      auto; right; right; rewrite ?allUpper_cons;
      (split; [cbn; lia | auto using allUpper_nil]).
  - intros [->|[->|[L U]]]; [reflexivity | reflexivity |].
    destruct s as [|c1 [|c2 [|c3 s]]]; cbn in L; try lia;
      rewrite ?allUpper_cons in U; unfold_run;
      rewrite <- !inClass_upper in U;
      destruct U as (-> & U); [reflexivity|].
    destruct U as (-> & _). reflexivity.
Qed.

Lemma subdivisionPattern_accepts (s : string) :
  Match subdivisionPattern s = true <-> validSubdivisionCode s.
Proof.
  unfold subdivisionPattern, validSubdivisionCode.
  rewrite Match_whole. split.
  - destruct s as [|c1 [|c2 [|c3 [|c4 s]]]]; unfold_run; intros H;
      bool_hyps; auto; right; rewrite ?allUpper_cons;
      (split; [cbn; lia | auto using allUpper_nil]).
  - intros [->|[L U]]; [reflexivity|].
    destruct s as [|c1 [|c2 [|c3 [|c4 s]]]]; cbn in L; try lia;
      rewrite ?allUpper_cons in U; unfold_run;
      rewrite <- !inClass_upper in U.
    + destruct U as (-> & _). reflexivity.
    + destruct U as (-> & -> & _). reflexivity.
    + destruct U as (-> & -> & -> & _). reflexivity.
Qed.

End Patterns.

(** ** Merging labels *)

Section Merge.

Implicit Types (g : gmap string string) (kvs : list (string * string)).

Lemma mergedLabel_empty g (k : string) : mergedLabel g ∅ k = g !! k.
Proof.
  unfold mergedLabel. rewrite lookup_empty.
  destruct (g !! k) as [w|]; [|reflexivity].
  now destruct (String.eqb w "").
Qed.

(** One turn of the loop on a receiver that has a map. *)
Lemma mergeLabel_Some g (k v : string) :
  mergeLabel (Some g) (k, v)
  = Some (Some (if String.eqb (default "" (g !! k)) "" then <[k := v]> g
                else g)).
Proof.
  unfold mergeLabel, index, assign. cbn [fst snd].
  now destruct (String.eqb (default "" (g !! k)) "").
Qed.

(** The loop never panics on a receiver that has a map, and its result is
    the key-wise merge with the pairs visited. *)
Lemma mergeLoop_Some kvs g :
  NoDup kvs.*1 ->
  exists g', mergeLoop kvs (Some g) = Some (Some g')
             /\ forall k, g' !! k = mergedLabel g (list_to_map kvs) k.
Proof.
  revert g. induction kvs as [|[k0 v0] kvs IH]; intros g ND.
  - exists g. split; [reflexivity|]. intros k. cbn.
    now rewrite mergedLabel_empty.
  - cbn [fmap list_fmap fst] in ND. apply NoDup_cons in ND as [Hk0 ND].
    cbn [mergeLoop]. rewrite mergeLabel_Some.
    pose proof (not_elem_of_list_to_map_1 (M := gmap string) kvs k0 Hk0)
      as Hnone.
    destruct (String.eqb (default "" (g !! k0)) "") eqn:E.
    + destruct (IH (<[k0 := v0]> g) ND) as (g' & -> & Hg').
      exists g'. split; [reflexivity|]. intros k. rewrite Hg'.
      rewrite list_to_map_cons. unfold mergedLabel.
      destruct (decide (k0 = k)) as [<-|Hne].
      * rewrite !lookup_insert_eq, Hnone. apply String.eqb_eq in E.
        destruct (g !! k0) as [w|]; cbn in E.
        -- subst w. cbn. now destruct (String.eqb v0 "").
        -- now destruct (String.eqb v0 "").
      * now rewrite !lookup_insert_ne by assumption.
    + destruct (IH g ND) as (g' & -> & Hg').
      exists g'. split; [reflexivity|]. intros k. rewrite Hg'.
      rewrite list_to_map_cons. unfold mergedLabel.
      destruct (decide (k0 = k)) as [<-|Hne].
      * destruct (g !! k0) as [w|]; cbn in E; [|discriminate E].
        now rewrite E.
      * now rewrite !lookup_insert_ne by assumption.
Qed.

(** The order in which [range] visits the pairs does not matter. *)
Lemma mergeLoop_order kvs kvs' g :
  NoDup kvs.*1 -> kvs ≡ₚ kvs' ->
  mergeLoop kvs (Some g) = mergeLoop kvs' (Some g).
Proof.
  intros ND P.
  assert (NoDup kvs'.*1) as ND' by now rewrite <- P.
  destruct (mergeLoop_Some kvs g ND) as (g1 & -> & H1).
  destruct (mergeLoop_Some kvs' g ND') as (g2 & -> & H2).
  do 2 f_equal. apply map_eq. intros k.
  now rewrite H1, H2, (list_to_map_proper kvs kvs' ND P).
Qed.

(** On a receiver without map, the first pair visited panics. *)
Lemma mergeLoop_nil kvs :
  mergeLoop kvs None = match kvs with [] => Some None | _ => None end.
Proof. now destruct kvs as [|[k v] kvs]. Qed.

Lemma MergeLabels_lookup (e : Endpoint) (labels : gomap) g :
  Labels e = Some g ->
  exists g', MergeLabels labels e = Some (withLabels e (Some g'))
             /\ forall k, g' !! k = mergedLabel g (default ∅ labels) k.
Proof.
  intros HL. unfold MergeLabels. rewrite HL.
  destruct (mergeLoop_Some (range labels) g) as (g' & -> & Hg').
  - destruct labels as [m|]; cbn; [apply NoDup_fst_map_to_list|constructor].
  - exists g'. split; [reflexivity|]. intros k. rewrite Hg'. f_equal.
    destruct labels as [m|]; cbn; [apply list_to_map_to_list|reflexivity].
Qed.

End Merge.

(** ** The setters *)

Section Setters.

Lemma pattern_accepts (f : GeoField) (c : string) :
  Match (pattern f) c = true <-> validCode f c.
Proof.
  destruct f; cbn [pattern validCode].
  - apply continentPattern_accepts.
  - apply countryPattern_accepts.
  - apply subdivisionPattern_accepts.
Qed.

(** The geolocation a successful setter leaves behind. *)
Lemma setCode_match (f : GeoField) (c : string) (st : Store) :
  Match (pattern f) c = true ->
  snd (setCode f c st) = None
  /\ logrus (fst (setCode f c st)) = logrus st
  /\ exists g, this (fst (setCode f c st)) = withGeo (this st) g
               /\ code f (withGeo (this st) g) = c
               /\ forall f', f' <> f ->
                    code f' (withGeo (this st) g) = code f' (this st).
Proof.
  intros M.
  destruct f; cbn [setCode pattern] in *;
    unfold SetContinentCode, SetCountryCode, SetSubdivisionCode;
    rewrite M; cbn [fst snd this logrus];
    (split; [reflexivity|]); (split; [reflexivity|]);
    eexists; (split; [reflexivity|]); (split; [reflexivity|]);
    intros [] Hne; try reflexivity; contradiction.
Qed.

(** A rejected code: the endpoint is as before, the error is logged and
    returned. *)
Lemma setCode_mismatch (f : GeoField) (c : string) (st : Store) :
  Match (pattern f) c = false ->
  exists err, setCode f c st = (logError err st, Some err).
Proof.
  intros M.
  destruct f; cbn [setCode pattern] in *;
    unfold SetContinentCode, SetCountryCode, SetSubdivisionCode;
    rewrite M; eexists; reflexivity.
Qed.

(** The messages, as [fmt.Errorf] builds them. *)
Lemma SetContinentCode_message (c : string) (st : Store) :
  Match continentPattern c = false ->
  snd (SetContinentCode c st)
  = Some (mkError (c ++ " is not a valid ContinentCode format, expected 'AF|AN|AS|EU|OC|NA|SA|*' or empty string")).
Proof. intros M. unfold SetContinentCode. now rewrite M. Qed.

Lemma SetCountryCode_message (c : string) (st : Store) :
  Match countryPattern c = false ->
  snd (SetCountryCode c st)
  = Some (mkError (c ++ " is not a valid SubdivisionCode format, expected 1-2 uppercase characters, *  or empty string")).
Proof. intros M. unfold SetCountryCode. now rewrite M. Qed.

Lemma SetSubdivisionCode_message (c : string) (st : Store) :
  Match subdivisionPattern c = false ->
  snd (SetSubdivisionCode c st)
  = Some (mkError (c ++ " is not a valid SubdivisionCode format, expected 1-3 uppercase characters or empty string")).
Proof. intros M. unfold SetSubdivisionCode. now rewrite M. Qed.

End Setters.

(** ** Operations keep the names *)

Section Reachable.

Lemma exec_names (o : Op) (st st' : Store) :
  exec o st = Some st' ->
  DNSName (this st') = DNSName (this st)
  /\ Target (this st') = Target (this st).
Proof.
  destruct o as [labels|f c]; cbn [exec].
  - unfold MergeLabels.
    destruct (mergeLoop (range labels) (Labels (this st))) as [L|];
      cbn; [|discriminate]. intros [= <-]. now split.
  - intros [= <-].
    destruct (Match (pattern f) c) eqn:M.
    + destruct (setCode_match f c st M) as (_ & _ & g & -> & _).
      now split.
    + destruct (setCode_mismatch f c st M) as (err & ->). now split.
Qed.

Lemma reachable_names (st0 st : Store) :
  reachable st0 st ->
  DNSName (this st) = DNSName (this st0)
  /\ Target (this st) = Target (this st0).
Proof.
  induction 1 as [|st st' o _ [IHd IHt] E]; [now split|].
  apply exec_names in E as [Ed Et]. split; congruence.
Qed.

End Reachable.

(** * The claims *)

(** C1, as stated, fails: the constructor removes a single trailing dot, so
    an input that ends with two dots is stored with one. *)
Lemma NewEndpoint_keeps_second_dot :
  endsWithDot (DNSName (NewEndpointWithTTL "example.com.." "1.2.3.4" "A" 300%Z)).
Proof. reflexivity. Qed.

(** C1 (amended): when neither [dnsName] nor [target] ends with two dots,
    the endpoint made by [NewEndpointWithTTL] (and so by [NewEndpoint]) and
    every state reached from it by [MergeLabels], [SetContinentCode],
    [SetCountryCode] and [SetSubdivisionCode] has the [DNSName] and [Target]
    the constructor stored, and neither ends with a dot. *)
Theorem trailing_dot_invariant
        (dnsName target recordType : string) (ttl : TTL)
        (log : list error) (st : Store) :
  ~ endsWithTwoDots dnsName ->
  ~ endsWithTwoDots target ->
  reachable (mkStore (NewEndpointWithTTL dnsName target recordType ttl) log) st ->
  DNSName (this st) = TrimSuffix dnsName "."
  /\ Target (this st) = TrimSuffix target "."
  /\ ~ endsWithDot (DNSName (this st))
  /\ ~ endsWithDot (Target (this st)).
Proof.
  intros Hd Ht R. apply reachable_names in R as [-> ->].
  cbn [this DNSName Target NewEndpointWithTTL].
  rewrite !TrimSuffix_dot_endsWithDot. tauto.
Qed.

Lemma trailing_dot_invariant_witness :
  let st1 := fst (SetCountryCode "DE" exampleStore) in
  let st2 := mkStore (withLabels (this st1) ownerLabels) (logrus st1) in
  DNSName (this st2) = "example.com" /\ Target (this st2) = "1.2.3.4".
Proof.
  intros st1 st2.
  assert (reachable exampleStore st2) as R.
  { apply (reach_exec _ st1 st2 (OpMergeLabels ownerLabels)).
    - apply (reach_exec _ exampleStore st1 (OpSetCode FCountry "DE"));
        [constructor | reflexivity].
    - vm_compute. reflexivity. }
  destruct (trailing_dot_invariant "example.com." "1.2.3.4" "A" 300%Z [] st2)
    as (Hd & Ht & _).
  - intros [_ H]. vm_compute in H. discriminate H.
  - intros [H _]. vm_compute in H. discriminate H.
  - exact R.
  - split; [exact Hd | exact Ht].
Defined.

(** C2: an input that ends with exactly one dot is stored without its last
    byte (which is that dot, and what is stored no longer ends with one); an
    input that does not end with a dot is stored as it is.  This holds for
    [dnsName] and for [target]. *)
Theorem NewEndpointWithTTL_strips_one_dot
        (dnsName target recordType : string) (ttl : TTL) :
  let e := NewEndpointWithTTL dnsName target recordType ttl in
  (endsWithOneDot dnsName ->
     DNSName e = dropLast dnsName /\ dnsName = DNSName e ++ "."
     /\ ~ endsWithDot (DNSName e))
  /\ (~ endsWithDot dnsName -> DNSName e = dnsName)
  /\ (endsWithOneDot target ->
        Target e = dropLast target /\ target = Target e ++ "."
        /\ ~ endsWithDot (Target e))
  /\ (~ endsWithDot target -> Target e = target).
Proof.
  cbn [NewEndpointWithTTL DNSName Target].
  assert (forall s, endsWithOneDot s ->
            TrimSuffix s "." = dropLast s /\ s = TrimSuffix s "." ++ "."
            /\ ~ endsWithDot (TrimSuffix s ".")) as One.
  { intros s [Y N]. rewrite (TrimSuffix_dot_present s Y).
    split; [reflexivity|]. split; [|exact N].
    now apply dropLast_lastByte. }
  repeat split; try (apply One; assumption);
    now apply TrimSuffix_dot_absent.
Qed.

Lemma NewEndpointWithTTL_strips_one_dot_witness :
  DNSName (NewEndpointWithTTL "example.com." "1.2.3.4" "A" 300%Z)
  = "example.com"
  /\ Target (NewEndpointWithTTL "example.com." "1.2.3.4" "A" 300%Z)
     = "1.2.3.4".
Proof.
  destruct (NewEndpointWithTTL_strips_one_dot "example.com." "1.2.3.4" "A" 300%Z)
    as (Hd & _ & _ & Ht).
  split.
  - destruct Hd as (-> & _).
    + split; [reflexivity|]. intros H. vm_compute in H. discriminate H.
    + reflexivity.
  - apply Ht. intros H. vm_compute in H. discriminate H.
Defined.

(** C3, as stated, fails: on an endpoint whose [Labels] is the nil map (the
    zero value [Endpoint{}], or any literal that leaves the field out) the
    first assignment of the loop panics. *)
Lemma MergeLabels_panics_on_nil_Labels :
  MergeLabels ownerLabels zeroEndpoint = None.
Proof.
  unfold MergeLabels, ownerLabels, zeroEndpoint. cbn [Labels range].
  rewrite map_to_list_singleton. reflexivity.
Qed.

(** C3 (amended): on an endpoint whose [Labels] is a map (not nil, as for
    every endpoint the constructors make), [MergeLabels] does not panic,
    changes no other field, and afterwards every key of the argument whose
    value in [Labels] was missing or empty holds the argument's value, while
    every key whose value in [Labels] was not empty still holds it. *)
Theorem MergeLabels_merges
        (e : Endpoint) (labels : gomap) (g : gmap string string) :
  Labels e = Some g ->
  exists g' : gmap string string,
    MergeLabels labels e = Some (withLabels e (Some g'))
    /\ (forall k v, lookupLabel labels k = Some v ->
                    g !! k = None \/ g !! k = Some "" ->
                    g' !! k = Some v)
    /\ (forall k w, g !! k = Some w -> w <> "" -> g' !! k = Some w).
Proof.
  intros HL. destruct (MergeLabels_lookup e labels g HL) as (g' & E & Hg').
  exists g'. split; [exact E|]. split.
  - intros k v Hin Hold. rewrite Hg'. unfold mergedLabel.
    assert (default ∅ labels !! k = Some v) as ->.
    { destruct labels as [m|]; [exact Hin | discriminate Hin]. }
    now destruct Hold as [-> | ->].
  - intros k w Hold Hne. rewrite Hg'. unfold mergedLabel. rewrite Hold.
    destruct (String.eqb_spec w ""); [contradiction | reflexivity].
Qed.

Lemma MergeLabels_merges_witness :
  exists g' : gmap string string,
    MergeLabels ownerLabels (this exampleStore)
    = Some (withLabels (this exampleStore) (Some g'))
    /\ g' !! "owner" = Some "me".
Proof.
  destruct (MergeLabels_merges (this exampleStore) ownerLabels ∅)
    as (g' & E & Hnew & _).
  - reflexivity.
  - exists g'. split; [exact E|]. apply Hnew.
    + apply lookup_singleton_eq.
    + left. apply lookup_empty.
Defined.

(** C4: each setter, on a code its pattern rejects, returns an error and
    leaves the endpoint (so the field) as it was; on a code its pattern
    accepts, it returns no error and the field holds the code.
    [SetContinentCode("EU")] succeeds and sets the field,
    [SetContinentCode("XX")] fails and leaves it unchanged. *)
Theorem setters_validate (f : GeoField) (c : string) (st : Store) :
  (Match (pattern f) c = false ->
     (exists err, snd (setCode f c st) = Some err)
     /\ this (fst (setCode f c st)) = this st)
  /\ (Match (pattern f) c = true ->
        snd (setCode f c st) = None
        /\ code f (this (fst (setCode f c st))) = c)
  /\ (snd (SetContinentCode "EU" st) = None
      /\ ContinentCode (Geo (this (fst (SetContinentCode "EU" st)))) = "EU")
  /\ ((exists err, snd (SetContinentCode "XX" st) = Some err)
      /\ ContinentCode (Geo (this (fst (SetContinentCode "XX" st))))
         = ContinentCode (Geo (this st))).
Proof.
  assert (forall f c, Match (pattern f) c = false ->
            (exists err, snd (setCode f c st) = Some err)
            /\ this (fst (setCode f c st)) = this st) as Bad.
  { intros f' c' M. destruct (setCode_mismatch f' c' st M) as (err & ->).
    split; [now exists err | reflexivity]. }
  assert (forall f c, Match (pattern f) c = true ->
            snd (setCode f c st) = None
            /\ code f (this (fst (setCode f c st))) = c) as Good.
  { intros f' c' M.
    destruct (setCode_match f' c' st M) as (E & _ & g & -> & Hc & _).
    now split. }
  split; [apply Bad|]. split; [apply Good|]. split.
  - apply (Good FContinent "EU"). reflexivity.
  - destruct (Bad FContinent "XX") as [E T]; [reflexivity|].
    split; [exact E|]. cbn [setCode] in T. now rewrite T.
Qed.

Lemma setters_validate_witness :
  ((exists err, snd (SetSubdivisionCode "abcd" exampleStore) = Some err)
   /\ this (fst (SetSubdivisionCode "abcd" exampleStore)) = this exampleStore)
  /\ (snd (SetCountryCode "DE" exampleStore) = None
      /\ CountryCode (Geo (this (fst (SetCountryCode "DE" exampleStore))))
         = "DE").
Proof.
  split.
  - apply (proj1 (setters_validate FSubdivision "abcd" exampleStore)).
    reflexivity.
  - apply (proj1 (proj2 (setters_validate FCountry "DE" exampleStore))).
    reflexivity.
Defined.

(** C5: [IsConfigured] is true exactly for the positive values; it is false
    for zero and for every negative value. *)
Theorem IsConfigured_iff_positive (ttl : TTL) :
  (IsConfigured ttl = true <-> (0 < ttl)%Z)
  /\ IsConfigured 0%Z = false
  /\ ((ttl < 0)%Z -> IsConfigured ttl = false).
Proof.
  unfold IsConfigured. split; [apply Z.ltb_lt|]. split; [reflexivity|].
  intros H. apply Z.ltb_ge. lia.
Qed.

Lemma IsConfigured_iff_positive_witness :
  IsConfigured 300%Z = true /\ IsConfigured (-1)%Z = false.
Proof.
  split.
  - apply (proj1 (IsConfigured_iff_positive 300%Z)). lia.
  - apply (proj2 (proj2 (IsConfigured_iff_positive (-1)%Z))). lia.
Defined.

(** A setter returns no error exactly when its pattern accepts the code. *)
Lemma setCode_succeeds_iff (f : GeoField) (c : string) (st : Store) :
  snd (setCode f c st) = None <-> Match (pattern f) c = true.
Proof.
  destruct (Match (pattern f) c) eqn:M.
  - destruct (setCode_match f c st M) as (E & _). tauto.
  - destruct (setCode_mismatch f c st M) as (err & ->). cbn. split; discriminate.
Qed.

(** C6: [SetCountryCode] succeeds exactly when the code matches the country
    pattern, that is when it is empty, the single byte [*], or one or two
    upper-case ASCII letters; ["*"] is accepted and ["ABC"] is rejected. *)
Theorem SetCountryCode_succeeds_iff (c : string) (st : Store) :
  (snd (SetCountryCode c st) = None <-> Match countryPattern c = true)
  /\ (snd (SetCountryCode c st) = None <->
      c = "" \/ c = "*" \/ (1 <= len c <= 2 /\ allUpper c))
  /\ snd (SetCountryCode "*" st) = None
  /\ snd (SetCountryCode "ABC" st) <> None.
Proof.
  pose proof (setCode_succeeds_iff FCountry) as S. cbn [setCode pattern] in S.
  split; [apply S|]. split.
  - rewrite S. apply countryPattern_accepts.
  - split; [now apply S|]. rewrite S. discriminate.
Qed.

(** C7: [SetSubdivisionCode] succeeds exactly when the code matches the
    subdivision pattern, that is when it is empty or one to three upper-case
    ASCII letters; ["CA"] and [""] are accepted and ["abcd"] is rejected. *)
Theorem SetSubdivisionCode_succeeds_iff (c : string) (st : Store) :
  (snd (SetSubdivisionCode c st) = None <-> Match subdivisionPattern c = true)
  /\ (snd (SetSubdivisionCode c st) = None <->
      c = "" \/ (1 <= len c <= 3 /\ allUpper c))
  /\ snd (SetSubdivisionCode "CA" st) = None
  /\ snd (SetSubdivisionCode "" st) = None
  /\ snd (SetSubdivisionCode "abcd" st) <> None.
Proof.
  pose proof (setCode_succeeds_iff FSubdivision) as S.
  cbn [setCode pattern] in S.
  split; [apply S|]. split.
  - rewrite S. apply subdivisionPattern_accepts.
  - split; [now apply S|]. split; [now apply S|]. rewrite S. discriminate.
Qed.

Lemma append_empty (s : string) : s ++ "" = s.
Proof.
  induction s as [|c s IH]; [reflexivity|].
  change (String c (s ++ "") = String c s). now rewrite IH.
Qed.

(** *** What [%d] prints *)

Lemma digits_cons (acc d : Z) (c : ascii) (s : string) :
  digit c = Some d -> digits acc (String c s) = digits (10 * acc + d) s.
Proof. intros E. cbn [digits]. now rewrite E. Qed.

Lemma digits_of_uint_acc (d : Decimal.uint) (acc : positive) :
  digits (Z.pos acc) (NilEmpty.string_of_uint d)
  = Some (Z.pos (Pos.of_uint_acc d acc)).
Proof.
  revert acc.
  induction d as [|d IH|d IH|d IH|d IH|d IH|d IH|d IH|d IH|d IH|d IH];
    intros acc; [reflexivity|..];
    cbn [NilEmpty.string_of_uint Pos.of_uint_acc];
    rewrite <- IH; erewrite digits_cons by reflexivity;
    f_equal;
    try match goal with
      | |- context [Z.of_nat (nat_of_ascii ?c)] =>
          let v := eval vm_compute in (Z.of_nat (nat_of_ascii c)) in
          change (Z.of_nat (nat_of_ascii c)) with v
      end; lia.
Qed.

Lemma digits_of_uint (d : Decimal.uint) :
  digits 0 (NilEmpty.string_of_uint d) = Some (Z.of_N (Pos.of_uint d)).
Proof.
  induction d as [|d IH|d IH|d IH|d IH|d IH|d IH|d IH|d IH|d IH|d IH];
    [reflexivity | exact IH |..];
    cbn [NilEmpty.string_of_uint Pos.of_uint Z.of_N];
    rewrite <- digits_of_uint_acc; erewrite digits_cons by reflexivity;
    reflexivity.
Qed.

Lemma nzhead_not_D0 (d d' : Decimal.uint) : Decimal.nzhead d <> Decimal.D0 d'.
Proof. induction d; cbn; try discriminate. exact IHd. Qed.

(** The digits of a positive number do not start with a zero. *)
Lemma to_uint_not_D0 (p : positive) (d : Decimal.uint) :
  Pos.to_uint p <> Decimal.D0 d.
Proof.
  intros E.
  pose proof (DecimalPos.Unsigned.to_of (Pos.to_uint p)) as U.
  rewrite DecimalPos.Unsigned.of_to in U. cbn [N.to_uint] in U.
  rewrite E in U. rewrite DecimalFacts.unorm_D0 in U.
  unfold Decimal.unorm in U.
  destruct (Decimal.nzhead d) eqn:Hd; try discriminate U.
  - injection U as ->. exact (DecimalPos.Unsigned.to_uint_nonzero p E).
  - exact (nzhead_not_D0 _ _ Hd).
Qed.

Lemma numeral_of_positive (p : positive) :
  numeral (Z.pos p) (NilZero.string_of_uint (Pos.to_uint p)).
Proof.
  assert (NilZero.string_of_uint (Pos.to_uint p)
          = NilEmpty.string_of_uint (Pos.to_uint p)) as ->.
  { unfold NilZero.string_of_uint.
    destruct (Pos.to_uint p) eqn:E; try reflexivity.
    now apply DecimalPos.Unsigned.to_uint_nonnil in E. }
  split.
  - now rewrite digits_of_uint, DecimalPos.Unsigned.of_to.
  - right. destruct (Pos.to_uint p) eqn:E; try reflexivity.
    + now apply DecimalPos.Unsigned.to_uint_nonnil in E.
    + now apply to_uint_not_D0 in E.
Qed.

(** [FormatInt] prints the decimal notation of its argument. *)
Lemma FormatInt_decimal (z : Z) : decimal z (FormatInt z).
Proof.
  unfold decimal, FormatInt. destruct z as [|p|p]; cbn [Z.ltb Z.compare].
  - split; [reflexivity | now left].
  - apply numeral_of_positive.
  - eexists. split; [reflexivity|]. apply numeral_of_positive.
Qed.

(** C8: [String] returns the name, the TTL in decimal (digits without
    leading zero, after a minus sign for a negative TTL), the word [IN], the
    record type and the target, separated by single blanks; for the endpoint
    made from ["example.com."], ["1.2.3.4"], ["A"] and a TTL of 300 this is
    ["example.com 300 IN A 1.2.3.4"]. *)
Theorem String_is_zone_line (e : Endpoint) :
  (exists t : string,
     decimal (RecordTTL e) t
     /\ Endpoint_String e
        = DNSName e ++ " " ++ t ++ " IN " ++ RecordType e ++ " " ++ Target e)
  /\ Endpoint_String (NewEndpointWithTTL "example.com." "1.2.3.4" "A" 300%Z)
     = "example.com 300 IN A 1.2.3.4".
Proof.
  split; [|reflexivity].
  exists (FormatInt (RecordTTL e)). split; [apply FormatInt_decimal|].
  unfold Endpoint_String.
  cbn [Sprintf verb Ascii.eqb Bool.eqb andb orb String.append].
  now rewrite append_empty.
Qed.

(** C9: when a code fails a setter's pattern, the message of the error the
    setter returns starts with the rejected code and ends with the
    description of the format the field being set expects. *)
Theorem setters_error_carries_value_and_format
        (f : GeoField) (c : string) (st : Store) :
  Match (pattern f) c = false ->
  exists (err : error) (name : string),
    snd (setCode f c st) = Some err
    /\ Error err
       = c ++ " is not a valid " ++ name ++ " format, expected "
           ++ expectedFormat f.
Proof.
  intros M.
  destruct f; cbn [setCode pattern] in *;
    unfold SetContinentCode, SetCountryCode, SetSubdivisionCode;
    rewrite M; cbn [snd]; eexists;
    [exists "ContinentCode" | exists "SubdivisionCode"
     | exists "SubdivisionCode"];
    split; reflexivity.
Qed.

Lemma setters_error_carries_value_and_format_witness :
  exists (err : error) (name : string),
    snd (SetCountryCode "ABC" exampleStore) = Some err
    /\ Error err
       = "ABC" ++ " is not a valid " ++ name
           ++ " format, expected 1-2 uppercase characters, *  or empty string".
Proof.
  apply (setters_error_carries_value_and_format FCountry "ABC" exampleStore).
  reflexivity.
Defined.

(** C10: a setter that succeeds changes its own geolocation field only: the
    name, the target, the record type, the TTL, the labels and the other
    two geolocation fields are as before (and nothing is logged). *)
Theorem setters_frame (f : GeoField) (c : string) (st : Store) :
  snd (setCode f c st) = None ->
  let e := this st in
  let e' := this (fst (setCode f c st)) in
  DNSName e' = DNSName e
  /\ Target e' = Target e
  /\ RecordType e' = RecordType e
  /\ RecordTTL e' = RecordTTL e
  /\ Labels e' = Labels e
  /\ (forall f', f' <> f -> code f' e' = code f' e)
  /\ logrus (fst (setCode f c st)) = logrus st.
Proof.
  intros S e e'. apply setCode_succeeds_iff in S.
  destruct (setCode_match f c st S) as (_ & L & g & E & _ & O).
  subst e e'. rewrite E. repeat split; try reflexivity; assumption.
Qed.

Lemma setters_frame_witness :
  let e' := this (fst (SetCountryCode "DE" exampleStore)) in
  DNSName e' = "example.com" /\ ContinentCode (Geo e') = ""
  /\ SubdivisionCode (Geo e') = "".
Proof.
  destruct (setters_frame FCountry "DE" exampleStore)
    as (Hd & _ & _ & _ & _ & Ho & _); [reflexivity|].
  cbv zeta. split; [exact Hd|]. split.
  - apply (Ho FContinent). discriminate.
  - apply (Ho FSubdivision). discriminate.
Defined.

(** * Further properties of the package *)

(** ** The constructor *)

Lemma len_append (s t : string) : len (s ++ t) = len s + len t.
Proof.
  induction s as [|c s IH]; [reflexivity|].
  change (S (len (s ++ t)) = S (len s + len t)). now rewrite IH.
Qed.

(** X1: whatever the inputs, the constructor stores the name (and the
    target) either as given, when it does not end with a dot, or without one
    final dot: the input is the stored value, or the stored value followed by
    a dot.  At most one byte is dropped. *)
Theorem NewEndpointWithTTL_input_recoverable
        (dnsName target recordType : string) (ttl : TTL) :
  let e := NewEndpointWithTTL dnsName target recordType ttl in
  ((dnsName = DNSName e /\ ~ endsWithDot dnsName)
   \/ (dnsName = DNSName e ++ "." /\ endsWithDot dnsName))
  /\ ((target = Target e /\ ~ endsWithDot target)
      \/ (target = Target e ++ "." /\ endsWithDot target))
  /\ len dnsName <= S (len (DNSName e))
  /\ len target <= S (len (Target e)).
Proof.
  cbn [NewEndpointWithTTL DNSName Target].
  assert (forall s, (s = TrimSuffix s "." /\ ~ endsWithDot s)
                    \/ (s = TrimSuffix s "." ++ "." /\ endsWithDot s)) as R.
  { intros s. destruct (endsWithDot_dec s) as [Y|N].
    - right. split; [|exact Y]. rewrite (TrimSuffix_dot_present s Y).
      now apply dropLast_lastByte.
    - left. split; [|exact N]. now rewrite (TrimSuffix_dot_absent s N). }
  assert (forall s, len s <= S (len (TrimSuffix s "."))) as L.
  { intros s. destruct (R s) as [[E _]|[E _]]; rewrite E at 1.
    - lia.
    - rewrite len_append. cbn. lia. }
  repeat split; auto.
Qed.

(** ** The setters *)

(** X2: [SetContinentCode] succeeds exactly on the empty string and on the
    eight listed codes. *)
Theorem SetContinentCode_succeeds_iff (c : string) (st : Store) :
  snd (SetContinentCode c st) = None
  <-> c = "" \/ In c ["AF"; "AN"; "AS"; "EU"; "OC"; "NA"; "SA"; "*"].
Proof.
  destruct (Match continentPattern c) eqn:M.
  - destruct (setCode_match FContinent c st M) as (E & _).
    cbn [setCode] in E. apply continentPattern_accepts in M. tauto.
  - destruct (setCode_mismatch FContinent c st M) as (err & E).
    cbn [setCode] in E. rewrite E. cbn [snd].
    split; [discriminate|]. intros V.
    apply continentPattern_accepts in V. congruence.
Qed.

(** X3: a setter that rejects a code logs the error it returns, once, on
    top of what was logged before, and the message of that error starts with
    the rejected code. *)
Theorem setters_log_what_they_return (f : GeoField) (c : string) (st : Store) :
  ~ validCode f c ->
  exists err rest,
    snd (setCode f c st) = Some err
    /\ logrus (fst (setCode f c st)) = err :: logrus st
    /\ Error err = c ++ rest.
Proof.
  intros V.
  assert (Match (pattern f) c = false) as M.
  { destruct (Match (pattern f) c) eqn:M; [|reflexivity].
    apply pattern_accepts in M. contradiction. }
  destruct f; cbn [setCode pattern] in *;
    unfold SetContinentCode, SetCountryCode, SetSubdivisionCode;
    rewrite M; cbn [fst snd logError logrus];
    eexists; eexists; (split; [reflexivity|]); (split; [reflexivity|]);
    reflexivity.
Qed.

Lemma setters_log_what_they_return_witness :
  exists err rest,
    snd (SetContinentCode "eu" exampleStore) = Some err
    /\ logrus (fst (SetContinentCode "eu" exampleStore)) = [err]
    /\ Error err = "eu" ++ rest.
Proof.
  apply (setters_log_what_they_return FContinent "eu" exampleStore).
  intros [H|H]; [discriminate H|].
  cbn in H. repeat (destruct H as [H|H]; [discriminate H|]). exact H.
Defined.

(** X4: setters of different fields do not interfere: in either order they
    leave the same endpoint, whether the codes are accepted or not. *)
Theorem setters_commute (f f' : GeoField) (c c' : string) (st : Store) :
  f <> f' ->
  this (fst (setCode f c (fst (setCode f' c' st))))
  = this (fst (setCode f' c' (fst (setCode f c st)))).
Proof.
  intros Hne.
  destruct f, f'; try contradiction; cbn [setCode];
    unfold SetContinentCode, SetCountryCode, SetSubdivisionCode;
    repeat match goal with
      | |- context [Match ?p ?x] => destruct (Match p x)
      end; reflexivity.
Qed.

Lemma setters_commute_witness :
  this (fst (SetCountryCode "DE" (fst (SetContinentCode "EU" exampleStore))))
  = this (fst (SetContinentCode "EU" (fst (SetCountryCode "DE" exampleStore)))).
Proof. apply (setters_commute FCountry FContinent). discriminate. Defined.

(** X5: of two calls of the same setter in a row, the last accepted code is
    the one that stays: a rejected second code leaves the result of the
    first call, an accepted one makes the first call irrelevant. *)
Theorem setter_last_accepted_wins (f : GeoField) (c1 c2 : string) (st : Store) :
  this (fst (setCode f c2 (fst (setCode f c1 st))))
  = if Match (pattern f) c2 then this (fst (setCode f c2 st))
    else this (fst (setCode f c1 st)).
Proof.
  destruct f; cbn [setCode pattern];
    unfold SetContinentCode, SetCountryCode, SetSubdivisionCode;
    repeat match goal with
      | |- context [Match ?p ?x] => destruct (Match p x)
      end; reflexivity.
Qed.

(** ** Merging labels, further *)

Lemma withLabels_same (e : Endpoint) : withLabels e (Labels e) = e.
Proof. now destruct e. Qed.

(** The argument has no key exactly when [range] visits nothing. *)
Lemma range_nil (labels : gomap) :
  range labels = [] <-> forall k, lookupLabel labels k = None.
Proof.
  destruct labels as [m|]; cbn [range lookupLabel]; [|tauto].
  rewrite map_to_list_empty_iff. apply map_empty.
Qed.

(** X6: [MergeLabels] panics exactly when the receiver's [Labels] is the
    nil map and the argument has at least one key. *)
Theorem MergeLabels_panics_iff (e : Endpoint) (labels : gomap) :
  MergeLabels labels e = None
  <-> Labels e = None /\ exists k v, lookupLabel labels k = Some v.
Proof.
  split.
  - intros P. destruct (Labels e) as [g|] eqn:HL.
    + destruct (MergeLabels_lookup e labels g HL) as (g' & E & _). congruence.
    + split; [reflexivity|]. unfold MergeLabels in P.
      rewrite HL, mergeLoop_nil in P.
      destruct labels as [m|]; cbn [range] in P; [|discriminate P].
      destruct (map_to_list m) as [|[k v] l] eqn:Hl; [discriminate P|].
      exists k, v. cbn [lookupLabel]. apply elem_of_map_to_list.
      rewrite Hl. constructor.
  - intros (HL & k & v & Hk). unfold MergeLabels. rewrite HL, mergeLoop_nil.
    destruct (range labels) as [|kv l] eqn:Hr; [|reflexivity].
    rewrite (proj1 (range_nil labels) Hr k) in Hk. discriminate Hk.
Qed.

(** X7: with an argument that has no key (the nil map or an empty map),
    [MergeLabels] returns normally and leaves the receiver as it is, also
    when the receiver's [Labels] is nil. *)
Theorem MergeLabels_empty_argument (e : Endpoint) (labels : gomap) :
  (forall k, lookupLabel labels k = None) ->
  MergeLabels labels e = Some e.
Proof.
  intros H. unfold MergeLabels. rewrite (proj2 (range_nil labels) H).
  cbn. now rewrite withLabels_same.
Qed.

Lemma MergeLabels_empty_argument_witness :
  MergeLabels None zeroEndpoint = Some zeroEndpoint
  /\ MergeLabels (Some ∅) zeroEndpoint = Some zeroEndpoint.
Proof.
  split.
  - apply MergeLabels_empty_argument. reflexivity.
  - apply MergeLabels_empty_argument. intros k. apply lookup_empty.
Defined.

(** X8: the result of the loop does not depend on the order in which the
    pairs of the argument are visited (Go leaves the order of [range] over a
    map unspecified), for a receiver with or without map. *)
Theorem MergeLabels_any_order
        (labels L : gomap) (kvs : list (string * string)) :
  kvs ≡ₚ range labels ->
  mergeLoop kvs L = mergeLoop (range labels) L.
Proof.
  intros P. destruct L as [g|].
  - symmetry. apply mergeLoop_order; [|now symmetry].
    destruct labels as [m|]; cbn; [apply NoDup_fst_map_to_list|constructor].
  - rewrite !mergeLoop_nil.
    destruct (range labels) as [|kv l].
    + apply Permutation_nil_r in P. now subst.
    + destruct kvs as [|kv' l']; [|reflexivity].
      apply Permutation_nil_cons in P. contradiction.
Qed.

Lemma MergeLabels_any_order_witness :
  mergeLoop (rev (range otherLabels)) ownerLabels
  = mergeLoop (range otherLabels) ownerLabels.
Proof.
  apply MergeLabels_any_order. symmetry. apply Permutation_rev.
Defined.

(** X9: merging the same labels a second time changes nothing. *)
Theorem MergeLabels_idempotent (e e' : Endpoint) (labels : gomap) :
  MergeLabels labels e = Some e' -> MergeLabels labels e' = Some e'.
Proof.
  intros E. destruct (Labels e) as [g|] eqn:HL.
  - destruct (MergeLabels_lookup e labels g HL) as (g' & E' & Hg').
    rewrite E' in E. injection E as <-.
    destruct (MergeLabels_lookup (withLabels e (Some g')) labels g' eq_refl)
      as (g'' & -> & Hg'').
    do 2 f_equal. cbn [withLabels Labels]. f_equal. apply map_eq. intros k.
    rewrite Hg''. unfold mergedLabel. rewrite Hg'. unfold mergedLabel.
    destruct (g !! k) as [w|]; [destruct (String.eqb w "") eqn:Ew|].
    + apply String.eqb_eq in Ew. subst w.
      destruct (default ∅ labels !! k) as [v|]; cbn;
        [now destruct (String.eqb v "") | reflexivity].
    + now rewrite Ew.
    + destruct (default ∅ labels !! k) as [v|]; cbn;
        [now destruct (String.eqb v "") | reflexivity].
  - unfold MergeLabels in *. rewrite HL, mergeLoop_nil in E.
    destruct (range labels) as [|kv l]; [|discriminate E].
    cbn in E. injection E as <-. cbn. now rewrite withLabels_same.
Qed.

Lemma MergeLabels_idempotent_witness :
  MergeLabels ownerLabels (withLabels (this exampleStore) ownerLabels)
  = Some (withLabels (this exampleStore) ownerLabels).
Proof.
  apply (MergeLabels_idempotent (this exampleStore)).
  vm_compute. reflexivity.
Defined.

(** X10: [MergeLabels] never removes a key and never touches a key the
    argument does not have: afterwards the keys are those of the receiver
    and those of the argument, and a key missing from the argument has the
    value it had. *)
Theorem MergeLabels_keys
        (e : Endpoint) (labels : gomap) (g : gmap string string) :
  Labels e = Some g ->
  exists g' : gmap string string,
    MergeLabels labels e = Some (withLabels e (Some g'))
    /\ (forall k, lookupLabel labels k = None -> g' !! k = g !! k)
    /\ (forall k, is_Some (g' !! k)
                  <-> is_Some (g !! k) \/ is_Some (lookupLabel labels k)).
Proof.
  intros HL. destruct (MergeLabels_lookup e labels g HL) as (g' & E & Hg').
  exists g'. split; [exact E|].
  assert (forall k, default ∅ labels !! k = lookupLabel labels k) as D.
  { intros k. destruct labels as [m|]; [reflexivity | apply lookup_empty]. }
  split; intros k; rewrite Hg'; unfold mergedLabel; rewrite D.
  - intros ->. destruct (g !! k) as [w|]; [|reflexivity].
    now destruct (String.eqb w "").
  - destruct (g !! k) as [w|].
    + destruct (String.eqb w ""); split; eauto.
    + split; [tauto|]. intros [[x [=]]|H]. exact H.
Qed.

Lemma MergeLabels_keys_witness :
  exists g' : gmap string string,
    MergeLabels otherLabels (this ownedStore)
    = Some (withLabels (this ownedStore) (Some g'))
    /\ is_Some (g' !! "zone") /\ is_Some (g' !! "owner")
    /\ g' !! "region" = None.
Proof.
  destruct (MergeLabels_keys (this ownedStore) otherLabels
              {[ OwnerLabelKey := "me" ]} eq_refl) as (g' & E & Hout & Hk).
  exists g'. split; [exact E|]. split; [|split].
  - apply Hk. right. vm_compute. eauto.
  - apply Hk. left. vm_compute. eauto.
  - rewrite Hout; vm_compute; reflexivity.
Defined.

(** ** Invariants of the states reached from a constructed endpoint *)

(** What one operation does to the labels and to the geolocation codes. *)
Lemma exec_merge_inv (labels : gomap) (st st' : Store) :
  exec (OpMergeLabels labels) st = Some st' ->
  exists L, mergeLoop (range labels) (Labels (this st)) = Some L
            /\ st' = mkStore (withLabels (this st) L) (logrus st).
Proof.
  cbn [exec]. unfold MergeLabels.
  destruct (mergeLoop (range labels) (Labels (this st))) as [L|];
    cbn; [|discriminate]. intros [= <-]. now exists L.
Qed.

Lemma exec_set_inv (f : GeoField) (c : string) (st st' : Store) :
  exec (OpSetCode f c) st = Some st' ->
  Labels (this st') = Labels (this st)
  /\ ((validCode f c /\ code f (this st') = c
       /\ forall f', f' <> f -> code f' (this st') = code f' (this st))
      \/ this st' = this st).
Proof.
  cbn [exec]. intros [= <-].
  destruct (Match (pattern f) c) eqn:M.
  - destruct (setCode_match f c st M) as (_ & _ & g & -> & Hc & Ho).
    split; [reflexivity|]. left. apply pattern_accepts in M. now split.
  - destruct (setCode_mismatch f c st M) as (err & ->).
    split; [reflexivity|]. now right.
Qed.

Lemma validCode_empty (f : GeoField) : validCode f "".
Proof. destruct f; now left. Qed.

Lemma GeoField_eq_dec (f f' : GeoField) : {f = f'} + {f <> f'}.
Proof. decide equality. Defined.

(** X11: in every state reached from a constructed endpoint, each of the
    three geolocation fields holds a code its setter accepts: the continent
    is empty or one of the eight codes, the country is empty, [*] or one or
    two upper-case letters, the subdivision is empty or one to three
    upper-case letters. *)
Theorem geolocation_always_valid
        (dnsName target recordType : string) (ttl : TTL)
        (log : list error) (st : Store) (f : GeoField) :
  reachable (mkStore (NewEndpointWithTTL dnsName target recordType ttl) log) st ->
  validCode f (code f (this st)).
Proof.
  intros R. revert f.
  induction R as [|st st' o _ IH E]; intros f.
  - destruct f; apply validCode_empty.
  - destruct o as [labels|f0 c].
    + apply exec_merge_inv in E as (L & _ & ->). exact (IH f).
    + apply exec_set_inv in E as (_ & [(V & Hc & Ho)| ->]); [|apply IH].
      destruct (GeoField_eq_dec f f0) as [->|Hne].
      * now rewrite Hc.
      * rewrite (Ho f Hne). apply IH.
Qed.

Lemma geolocation_always_valid_witness :
  let st1 := fst (SetCountryCode "DE" exampleStore) in
  let st2 := fst (SetCountryCode "Germany" st1) in
  validCountryCode (CountryCode (Geo (this st2))).
Proof.
  intros st1 st2.
  apply (geolocation_always_valid "example.com." "1.2.3.4" "A" 300%Z []
           st2 FCountry).
  apply (reach_exec _ st1 st2 (OpSetCode FCountry "Germany"));
    [|reflexivity].
  apply (reach_exec _ exampleStore st1 (OpSetCode FCountry "DE"));
    [constructor | reflexivity].
Defined.

(** X12: in every state reached from a constructed endpoint the [Labels]
    map is not nil, so [MergeLabels] returns normally there whatever its
    argument. *)
Theorem constructed_never_panics
        (dnsName target recordType : string) (ttl : TTL)
        (log : list error) (st : Store) (labels : gomap) :
  reachable (mkStore (NewEndpointWithTTL dnsName target recordType ttl) log) st ->
  (exists g, Labels (this st) = Some g)
  /\ exists st', exec (OpMergeLabels labels) st = Some st'.
Proof.
  intros R.
  assert (exists g, Labels (this st) = Some g) as [g HL].
  { induction R as [|st st' o _ [g HL] E]; [now exists ∅|].
    destruct o as [l|f c].
    - apply exec_merge_inv in E as (L & EL & ->). rewrite HL in EL.
      destruct (mergeLoop_Some (range l) g) as (g' & Eg' & _).
      + destruct l as [m|]; cbn; [apply NoDup_fst_map_to_list|constructor].
      + exists g'. cbn. congruence.
    - apply exec_set_inv in E as (-> & _). now exists g. }
  split; [now exists g|].
  destruct (MergeLabels_lookup (this st) labels g HL) as (g' & E & _).
  cbn [exec]. rewrite E. cbn. eauto.
Qed.

Lemma constructed_never_panics_witness :
  let st1 := fst (SetContinentCode "EU" exampleStore) in
  (exists g, Labels (this st1) = Some g)
  /\ exists st', exec (OpMergeLabels otherLabels) st1 = Some st'.
Proof.
  intros st1.
  apply (constructed_never_panics "example.com." "1.2.3.4" "A" 300%Z []).
  apply (reach_exec _ exampleStore st1 (OpSetCode FContinent "EU"));
    [constructor | reflexivity].
Defined.

(** X13: a label that holds a non-empty value keeps it through every later
    operation: no merge and no setter overwrites or removes it. *)
Theorem nonempty_label_persists
        (st0 st : Store) (g : gmap string string) (k w : string) :
  reachable st0 st ->
  Labels (this st0) = Some g -> g !! k = Some w -> w <> "" ->
  exists g', Labels (this st) = Some g' /\ g' !! k = Some w.
Proof.
  intros R HL Hk Hw.
  induction R as [|st st' o _ (g1 & HL1 & Hk1) E]; [now exists g|].
  destruct o as [l|f c].
  - apply exec_merge_inv in E as (L & EL & ->).
    destruct (MergeLabels_lookup (this st) l g1 HL1) as (g' & E' & Hg').
    unfold MergeLabels in E'. rewrite EL in E'. cbn in E'.
    injection E' as ->.
    exists g'. split; [reflexivity|]. rewrite Hg'. unfold mergedLabel.
    rewrite Hk1. destruct (String.eqb_spec w ""); [contradiction|reflexivity].
  - apply exec_set_inv in E as (-> & _). now exists g1.
Qed.

Lemma nonempty_label_persists_witness :
  let st1 := mkStore (withLabels (this ownedStore)
                        (Some (<[ "zone" := "eu" ]> {[ OwnerLabelKey := "me" ]})))
                     [] in
  exists g', Labels (this st1) = Some g' /\ g' !! "owner" = Some "me".
Proof.
  intros st1.
  apply (nonempty_label_persists ownedStore st1 {[ OwnerLabelKey := "me" ]}).
  - apply (reach_exec _ ownedStore st1 (OpMergeLabels otherLabels));
      [constructor|]. vm_compute. reflexivity.
  - reflexivity.
  - apply lookup_singleton_eq.
  - discriminate.
Defined.

Lemma exec_record (o : Op) (st st' : Store) :
  exec o st = Some st' ->
  RecordType (this st') = RecordType (this st)
  /\ RecordTTL (this st') = RecordTTL (this st).
Proof.
  destruct o as [labels|f c].
  - intros E. apply exec_merge_inv in E as (L & _ & ->). now split.
  - cbn [exec]. intros [= <-].
    destruct (Match (pattern f) c) eqn:M.
    + destruct (setCode_match f c st M) as (_ & _ & g & -> & _). now split.
    + destruct (setCode_mismatch f c st M) as (err & ->). now split.
Qed.

(** X14: the record line is fixed at construction: neither [MergeLabels] nor
    a setter changes the record type or the TTL, so [String] returns the
    same text in every later state. *)
Theorem String_is_stable (st0 st : Store) :
  reachable st0 st ->
  RecordType (this st) = RecordType (this st0)
  /\ RecordTTL (this st) = RecordTTL (this st0)
  /\ Endpoint_String (this st) = Endpoint_String (this st0).
Proof.
  intros R.
  assert (RecordType (this st) = RecordType (this st0)
          /\ RecordTTL (this st) = RecordTTL (this st0)) as [Hr Hl].
  { induction R as [|st st' o _ [IHr IHl] E]; [now split|].
    apply exec_record in E as [Er El]. split; congruence. }
  destruct (reachable_names st0 st R) as [Hd Ht].
  split; [exact Hr|]. split; [exact Hl|].
  unfold Endpoint_String. now rewrite Hd, Ht, Hr, Hl.
Qed.

Lemma String_is_stable_witness :
  let st1 := fst (SetSubdivisionCode "CA" exampleStore) in
  Endpoint_String (this st1) = "example.com 300 IN A 1.2.3.4".
Proof.
  intros st1.
  destruct (String_is_stable exampleStore st1) as (_ & _ & E).
  - apply (reach_exec _ exampleStore st1 (OpSetCode FSubdivision "CA"));
      [constructor | reflexivity].
  - rewrite E. reflexivity.
Defined.
